(** * vg_inspect.count_chunks: counting the chunks of a vg stream file

    A shallow embedding of [src/vg_inspect.py].  The Python function

    <<
    def count_chunks(path):
        cnt = itertools.count()
        deque(zip(stream.parse(path, vg.Graph), cnt), 0)
        return next(cnt)
    >>

    is modelled over an explicit interpreter state: the operating-system
    side (files on disk, open file descriptions, a log of handle
    acquisitions and releases) and the Python heap holding the shared
    [itertools.count] object.  Iterators follow Python's protocol: a call to
    [next] either yields an element, signals [StopIteration] or raises. *)

From Stdlib Require Import ZArith Strings.Byte.
From stdpp Require Import base option list gmap strings.

Local Open Scope Z_scope.

(** ** Exceptions and outcomes *)

(** The Python exceptions that can cross [count_chunks].  [FileNotFoundError]
    and [PermissionError] are the two [OSError]s of a failed [open];
    [DecodeError] is protobuf's; [ValueError] is a read on a closed file;
    [StopIterationExn] is what the builtin [next] raises on exhaustion. *)
Inductive exn : Type :=
  | FileNotFoundError (path : string)
  | PermissionError (path : string)
  | DecodeError
  | ValueError
  | StopIterationExn.

(** A call returns a value, raises, or (in a fuelled loop) runs out of fuel. *)
Inductive outcome (A : Type) : Type :=
  | Ret (a : A)
  | Raised (e : exn)
  | Diverged.
Arguments Ret {A} a.
Arguments Raised {A} e.
Arguments Diverged {A}.

(** What one call of [__next__] gives back when it does not raise. *)
Inductive next_result (A I : Type) : Type :=
  | Yield (a : A) (s' : I)
  | StopIteration.
Arguments Yield {A I} a s'.
Arguments StopIteration {A I}.

(** The spec's [FileError]: path missing, unreadable or permission denied. *)
Definition is_FileError (e : exn) : bool :=
  match e with
  | FileNotFoundError _ | PermissionError _ => true
  | _ => false
  end.

(** ** The operating-system side *)

Record inode : Type := Inode {
  readable : bool;
  frames : list (list byte)        (* the length-delimited records, in order *)
}.

Inductive event : Type :=
  | EvOpen (fd : nat) (path : string)
  | EvClose (fd : nat).

Record World : Type := MkWorld {
  disk : gmap string inode;            (* files by path *)
  fds : gmap nat (list (list byte));   (* open file descriptions *)
  trace : list event                   (* handles acquired and released *)
}.

(** The interpreter state: the world and the heap of [itertools.count]
    objects, addressed by position. *)
Record State : Type := MkState {
  world : World;
  heap : list Z
}.

Definition W (A : Type) : Type := World -> outcome A * World.
Definition M (A : Type) : Type := State -> outcome A * State.

Definition ret {A} (a : A) : M A := fun s => (Ret a, s).
Definition raise {A} (e : exn) : M A := fun s => (Raised e, s).
Definition diverge {A} : M A := fun s => (Diverged, s).
Definition bind {A B} (m : M A) (k : A -> M B) : M B :=
  fun s =>
    match m s with
    | (Ret a, s') => k a s'
    | (Raised e, s') => (Raised e, s')
    | (Diverged, s') => (Diverged, s')
    end.

Notation "'let*' x ':=' m 'in' k" := (bind m (fun x => k))
  (at level 10, x pattern, m at level 100, k at level 200).

Definition wret {A} (a : A) : W A := fun w => (Ret a, w).
Definition wraise {A} (e : exn) : W A := fun w => (Raised e, w).
Definition wbind {A B} (m : W A) (k : A -> W B) : W B :=
  fun w =>
    match m w with
    | (Ret a, w') => k a w'
    | (Raised e, w') => (Raised e, w')
    | (Diverged, w') => (Diverged, w')
    end.

(** A world computation run inside the interpreter: the heap is untouched. *)
Definition lift {A} (m : W A) : M A :=
  fun s => let (r, w') := m (world s) in (r, MkState w' (heap s)).

(** ** Python's iterator protocol *)

(** An iterator whose [__next__] only acts on the world (an external
    stream), and an iterator of the interpreter at large. *)
Class Stream (I A : Type) := stream_next : I -> W (next_result A I).
Class Iterator (I A : Type) := py_next : I -> M (next_result A I).

Global Instance stream_iterator {I A} `{Stream I A} : Iterator I A :=
  fun it => lift (stream_next it).

(** The builtin [next(it)]: exhaustion surfaces as the exception. *)
Definition builtin_next {I A} `{Iterator I A} (it : I) : M A :=
  let* r := py_next it in
  match r with
  | Yield v _ => ret v
  | StopIteration => raise StopIterationExn
  end.

(** ** itertools.count *)

(** A reference to a counter object of the heap: the object is shared by
    whoever holds the reference. *)
Record count_ref : Type := CountRef { count_addr : nat }.

(** [itertools.count()]: a new object whose next value is 0. *)
Definition itertools_count : M count_ref :=
  fun s => (Ret (CountRef (length (heap s))), MkState (world s) (heap s ++ [0])).

(** [next] on a counter yields its value and advances the object in place
    (a reference always points into the heap; the other branch is there for
    totality). *)
Global Instance count_iterator : Iterator count_ref Z :=
  fun c s =>
    match heap s !! count_addr c with
    | Some v => (Ret (Yield v c), MkState (world s) (<[count_addr c := v + 1]> (heap s)))
    | None => (Raised ValueError, s)
    end.

(** ** zip *)

Record zip_obj (I1 I2 : Type) : Type := Zip { zip_it1 : I1; zip_it2 : I2 }.
Arguments Zip {I1 I2} zip_it1 zip_it2.
Arguments zip_it1 {I1 I2} z.
Arguments zip_it2 {I1 I2} z.

(** [zip.__next__] asks its iterators from left to right and stops at the
    first one that is exhausted, without asking the ones after it. *)
Global Instance zip_iterator {I1 I2 A B} `{Iterator I1 A} `{Iterator I2 B} :
  Iterator (zip_obj I1 I2) (A * B) :=
  fun z =>
    let* r1 := py_next (zip_it1 z) in
    match r1 with
    | StopIteration => ret StopIteration
    | Yield x it1' =>
        let* r2 := py_next (zip_it2 z) in
        match r2 with
        | StopIteration => ret StopIteration
        | Yield y it2' => ret (Yield (x, y) (Zip it1' it2'))
        end
    end.

(** ** collections.deque *)

Record deque (A : Type) : Type := Deque { items : list A; maxlen : option nat }.
Arguments Deque {A} items maxlen.
Arguments items {A} d.
Arguments maxlen {A} d.

(** [deque.append]: push right, then drop from the left down to [maxlen]. *)
Definition deque_append {A} (x : A) (d : deque A) : deque A :=
  let xs := items d ++ [x] in
  match maxlen d with
  | None => Deque xs None
  | Some m => Deque (drop (length xs - m)%nat xs) (Some m)
  end.

(** One turn of the constructor's loop over its iterable: the finished
    deque on exhaustion, else the deque and the iterator to go on with. *)
Definition deque_step {I A} `{Iterator I A} (st : deque A * I) : M (deque A + deque A * I) :=
  let* r := py_next (snd st) in
  match r with
  | StopIteration => ret (inl (fst st))
  | Yield x it' => ret (inr (deque_append x (fst st), it'))
  end.

Fixpoint deque_extend {I A} `{Iterator I A} (fuel : nat) (st : deque A * I) : M (deque A) :=
  match fuel with
  | O => diverge
  | S fuel' =>
      let* r := deque_step st in
      match r with
      | inl d => ret d
      | inr st' => deque_extend fuel' st'
      end
  end.

(** [deque(iterable, maxlen)]. *)
Definition deque_new {I A} `{Iterator I A} (fuel : nat) (it : I) (maxlen : option nat) : M (deque A) :=
  deque_extend fuel (Deque [] maxlen, it).

(** ** Reference notions for the statements *)

Definition outcome_map {A B} (f : A -> B) (r : outcome A) : outcome B :=
  match r with
  | Ret a => Ret (f a)
  | Raised e => Raised e
  | Diverged => Diverged
  end.

(** A stream advanced on its own until it is exhausted: the elements it
    produced, in order. *)
Fixpoint stream_run {I A} `{Stream I A} (fuel : nat) (it : I) : W (list A) :=
  match fuel with
  | O => fun w => (Diverged, w)
  | S fuel' =>
      wbind (stream_next it) (fun r =>
        match r with
        | StopIteration => wret []
        | Yield x it' => wbind (stream_run fuel' it') (fun xs => wret (x :: xs))
        end)
  end.

(** The plain loop of the spec's design note: a scalar counter, one
    increment per element produced.
    <<
    n = 0
    for _ in it: n += 1
    return n
    >> *)
Fixpoint plain_count {I A} `{Iterator I A} (fuel : nat) (n : Z) (it : I) : M Z :=
  match fuel with
  | O => diverge
  | S fuel' =>
      let* r := py_next it in
      match r with
      | StopIteration => ret n
      | Yield _ it' => plain_count fuel' (n + 1) it'
      end
  end.

(** The three lines of [count_chunks] over an arbitrary iterator. *)
Definition count_by_drain {I A} `{Iterator I A} (fuel : nat) (it : I) : M Z :=
  let* cnt := itertools_count in
  let* _ := deque_new fuel (Zip it cnt) (Some 0%nat) in
  builtin_next cnt.

(** The same with the arguments of [zip] exchanged, which the comment in
    the source warns against. *)
Definition count_by_drain_swapped {I A} `{Iterator I A} (fuel : nat) (it : I) : M Z :=
  let* cnt := itertools_count in
  let* _ := deque_new fuel (Zip cnt it) (Some 0%nat) in
  builtin_next cnt.

(** The configurations the constructor's loop goes through: the deque built
    so far, the iterator, and the interpreter state. *)
Inductive drain_reach {I A} `{Iterator I A} :
  (deque A * I) * State -> (deque A * I) * State -> Prop :=
  | drain_here c : drain_reach c c
  | drain_next st s st' s' c :
      deque_step st s = (Ret (inr st'), s') ->
      drain_reach (st', s') c ->
      drain_reach (st, s) c.

(** ** The stream decoder and count_chunks *)

(** The interface of the generated module [vg_pb2] as far as it is used:
    the message classes, the decoded messages, [ParseFromString] of a
    class on the bytes of one record, and the class [vg.Graph]. *)
Class vg_pb2 (pb_cls Message : Type) : Type := {
  ParseFromString : pb_cls -> list byte -> option Message;
  Graph : pb_cls
}.

Section VgInspect.

Context {pb_cls Message : Type} `{vg : vg_pb2 pb_cls Message}.

(** Modelled from the spec: [stream.open(path, 'rb')] of the external
    collaborator, not part of the sources.  It fails with a file error when
    the path does not exist ([FileNotFoundError]) or is unreadable
    ([PermissionError]); otherwise it acquires a new handle on the records
    of the file. *)
Definition stream_open (path : string) : W nat :=
  fun w =>
    match disk w !! path with
    | None => (Raised (FileNotFoundError path), w)
    | Some ino =>
        if readable ino then
          let fd := fresh (dom (fds w)) in
          (Ret fd, MkWorld (disk w) (<[fd := frames ino]> (fds w)) (trace w ++ [EvOpen fd path]))
        else (Raised (PermissionError path), w)
    end.

(** Modelled from the spec: the collaborator's "next record" on an open
    stream, [None] at end of file. *)
Definition stream_read (fd pos : nat) : W (option (list byte)) :=
  fun w =>
    match fds w !! fd with
    | None => (Raised ValueError, w)
    | Some fs => (Ret (fs !! pos), w)
    end.

(** Modelled from the spec: the release of the handle. *)
Definition stream_close (fd : nat) (w : World) : World :=
  match fds w !! fd with
  | None => w
  | Some _ => MkWorld (disk w) (delete fd (fds w)) (trace w ++ [EvClose fd])
  end.

(** The generator object of [stream.parse] while it can still be advanced:
    created (its body has not run yet) or suspended at its [yield] inside
    the [with] block, about to read the record at [pos].  It holds a handle
    and a position, never the records. *)
Inductive generator : Type :=
  | GenCreated (path : string) (cls : pb_cls)
  | GenSuspended (fd pos : nat) (cls : pb_cls).

(** [with istream: ...] around a body that may suspend at a [yield]: the
    stream is closed when the body completes or raises. *)
Definition with_exit {A I} (fd : nat) (body : W (next_result A I)) : W (next_result A I) :=
  fun w =>
    match body w with
    | (Ret (Yield a s'), w') => (Ret (Yield a s'), w')
    | (Ret StopIteration, w') => (Ret StopIteration, stream_close fd w')
    | (Raised e, w') => (Raised e, stream_close fd w')
    | (Diverged, w') => (Diverged, w')
    end.

(** The [for data in istream] loop, resumed at record [pos]. *)
Definition parse_resume (fd pos : nat) (cls : pb_cls) : W (next_result Message generator) :=
  with_exit fd
    (wbind (stream_read fd pos) (fun r =>
       match r with
       | None => wret StopIteration
       | Some data =>
           match ParseFromString cls data with
           | None => wraise DecodeError
           | Some m => wret (Yield m (GenSuspended fd (S pos) cls))
           end
       end)).

(** Modelled from the spec: the external collaborator [stream.parse] is
    not part of the sources; it is the decoding iterator factory the spec
    requires: it opens the file when first advanced, fails with a file
    error on a missing or unreadable path, yields one decoded message per
    record, raises a decode error on a malformed record, ends cleanly at
    end of file and holds its handle in a scope released on every exit. *)
Global Instance parse_stream : Stream generator Message :=
  fun g =>
    match g with
    | GenCreated path cls =>
        wbind (stream_open path) (fun fd => parse_resume fd 0 cls)
    | GenSuspended fd pos cls => parse_resume fd pos cls
    end.

Definition stream_parse (path : string) (cls : pb_cls) : generator := GenCreated path cls.

(** [count_chunks(path)]: count the [vg::Graph] chunks of a vg file.
    [fuel] bounds the turns of the loop inside the [deque] constructor. *)
Definition count_chunks (fuel : nat) (path : string) : M Z :=
  let* cnt := itertools_count in
  let* _ := deque_new fuel (Zip (stream_parse path Graph) cnt) (Some 0%nat) in
  builtin_next cnt.

(** The contract as the spec words it, [count_chunks(path, message_type)]:
    the class each record is decoded as is an argument. *)
Definition count_chunks_typed (fuel : nat) (path : string) (message_type : pb_cls) : M Z :=
  let* cnt := itertools_count in
  let* _ := deque_new fuel (Zip (stream_parse path message_type) cnt) (Some 0%nat) in
  builtin_next cnt.

(** The three lines with a deque that has no [maxlen], which keeps every
    pair it is fed: the variant the counting idiom is chosen to avoid. *)
Definition count_chunks_unbounded (fuel : nat) (path : string) : M Z :=
  let* cnt := itertools_count in
  let* _ := deque_new fuel (Zip (stream_parse path Graph) cnt) None in
  builtin_next cnt.

(** The number of records stored under [path] (0 when there is no file). *)
Definition records_at (path : string) (w : World) : nat :=
  match disk w !! path with
  | Some ino => length (frames ino)
  | None => O
  end.

(** Whether [path] names an existing readable file. *)
Definition openable (path : string) (w : World) : bool :=
  match disk w !! path with
  | Some ino => readable ino
  | None => false
  end.

(** What advancing [stream.parse(path, cls)] to its end amounts to. *)
Definition parse_outcome (cls : pb_cls) (path : string) (w : World) : outcome (list Message) * World :=
  match disk w !! path with
  | None => (Raised (FileNotFoundError path), w)
  | Some ino =>
      if readable ino then
        let fd := fresh (dom (fds w)) in
        let w' := MkWorld (disk w) (fds w) (trace w ++ [EvOpen fd path; EvClose fd]) in
        match mapM (ParseFromString cls) (frames ino) with
        | Some ms => (Ret ms, w')
        | None => (Raised DecodeError, w')
        end
      else (Raised (PermissionError path), w)
  end.

(** What holds of a configuration of the drain started by
    [count_chunks path] in state [s]: the zip still pairs the generator
    with the call's counter; the files are those of [s]; and either the
    generator has not started (no handle, counter at 0), or it is suspended
    at position [pos] of the file, the counter is at [pos], and the one
    handle the call opened is open on the records of the file. *)
Definition drain_invariant (path : string) (s : State)
    (c : (deque (Message * Z) * zip_obj generator count_ref) * State) : Prop :=
  let z := snd (fst c) in
  let s' := snd c in
  let a := length (heap s) in
  let fd := fresh (dom (fds (world s))) in
  zip_it2 z = CountRef a
  /\ disk (world s') = disk (world s)
  /\ ((zip_it1 z = GenCreated path Graph /\ world s' = world s /\ heap s' !! a = Some 0)
      \/ (exists ino pos,
            disk (world s) !! path = Some ino
            /\ zip_it1 z = GenSuspended fd pos Graph
            /\ (1 <= pos <= length (frames ino))%nat
            /\ heap s' !! a = Some (Z.of_nat pos)
            /\ fds (world s') = <[fd := frames ino]> (fds (world s))
            /\ trace (world s') = trace (world s) ++ [EvOpen fd path])).

End VgInspect.

(** ** A small concrete world *)

Module Toy.

(** Two message classes told apart by the first byte of a record. *)
Inductive toy_cls : Type := TGraph | TAlignment.

Definition toy_decode (c : toy_cls) (bs : list byte) : option (list byte) :=
  match c, bs with
  | TGraph, x01 :: r => Some r
  | TAlignment, x02 :: r => Some r
  | _, _ => None
  end.

(** [graphs.vg]: three graph records; [mixed.vg]: a graph record followed
    by a record of the other class; [locked.vg]: not readable; [empty.vg]:
    no record. *)
Definition toy_disk : gmap string inode :=
  <["graphs.vg" := Inode true [[x01; x05]; [x01]; [x01; x07]]]>
  (<["mixed.vg" := Inode true [[x01]; [x02]]]>
  (<["locked.vg" := Inode false [[x01]]]>
  (<["empty.vg" := Inode true []]> ∅))).

Definition toy_state : State := MkState (MkWorld toy_disk ∅ []) [].

Global Instance toy_vg : vg_pb2 toy_cls (list byte) := {
  ParseFromString := toy_decode;
  Graph := TGraph
}.

End Toy.

(** * Properties *)

(** ** Any stream: the loop of the deque constructor *)

Section AnyStream.

Context {I A : Type} `{X : Stream I A}.

Lemma state_eta (s : State) : MkState (world s) (heap s) = s.
Proof. by destruct s. Qed.

(** More fuel does not change a run that came to an end. *)
Lemma stream_run_mono (fuel fuel' : nat) (it : I) (w : World) :
  (fuel <= fuel')%nat ->
  fst (stream_run fuel it w) <> Diverged ->
  stream_run fuel' it w = stream_run fuel it w.
Proof.
  revert fuel' it w.
  induction fuel as [|fuel IH]; intros fuel' it w Hle Hnd; [done|].
  destruct fuel' as [|fuel']; [lia|].
  simpl in *. unfold wbind in *.
  destruct (stream_next it w) as [[[x it'|]|e|] w1]; try done.
  specialize (IH fuel' it' w1 ltac:(lia)).
  destruct (stream_run fuel it' w1) as [[xs|e|] w2] eqn:E; simpl in *;
    try done; rewrite IH; done.
Qed.

(** The plain loop returns its start value plus the number of elements the
    stream produces, and acts on the world as the stream does. *)
Lemma plain_count_run (fuel : nat) (n : Z) (it : I) (s : State) :
  plain_count fuel n it s =
    (outcome_map (fun xs => n + Z.of_nat (length xs)) (fst (stream_run fuel it (world s))),
     MkState (snd (stream_run fuel it (world s))) (heap s)).
Proof.
  revert n it s.
  induction fuel as [|fuel IH]; intros n it s; simpl.
  - by rewrite state_eta.
  - unfold bind, wbind, py_next, stream_iterator, lift.
    destruct (stream_next it (world s)) as [[[x it'|]|e|] w1]; simpl; try done.
    + rewrite IH. simpl.
      destruct (stream_run fuel it' w1) as [[xs|e|] w2]; simpl; try done.
      do 2 f_equal. lia.
    + by rewrite Z.add_0_r.
Qed.

(** One call of [next] on [zip(it, cnt)]: the counter is read and advanced
    only when the stream has yielded. *)
Lemma zip_count_step (it : I) (a : nat) (c : Z) (s : State) :
  heap s !! a = Some c ->
  py_next (Zip it (CountRef a)) s =
    match stream_next it (world s) with
    | (Ret (Yield x it'), w1) =>
        (Ret (Yield (x, c) (Zip it' (CountRef a))), MkState w1 (<[a := c + 1]> (heap s)))
    | (Ret StopIteration, w1) => (Ret StopIteration, MkState w1 (heap s))
    | (Raised e, w1) => (Raised e, MkState w1 (heap s))
    | (Diverged, w1) => (Diverged, MkState w1 (heap s))
    end.
Proof.
  intros Hc. unfold py_next, zip_iterator, bind; simpl.
  unfold py_next, stream_iterator, lift.
  destruct (stream_next it (world s)) as [[[x it'|]|e|] w1]; simpl; try done.
  unfold count_iterator; simpl. by rewrite Hc.
Qed.

(** Draining [zip(it, cnt)] into a deque of length 0: the deque stays
    empty, the world moves as under the stream alone, and the shared
    counter has advanced once per element and not once more. *)
Lemma drain_zip_count (fuel : nat) (it : I) (a : nat) (c : Z) (s : State) :
  heap s !! a = Some c ->
  exists k : nat,
    deque_extend fuel (Deque [] (Some 0%nat), Zip it (CountRef a)) s =
      (outcome_map (fun _ => Deque [] (Some 0%nat)) (fst (stream_run fuel it (world s))),
       MkState (snd (stream_run fuel it (world s))) (<[a := c + Z.of_nat k]> (heap s)))
    /\ (forall xs, fst (stream_run fuel it (world s)) = Ret xs -> k = length xs).
Proof.
  revert it c s.
  induction fuel as [|fuel IH]; intros it c s Hc.
  - exists O. split; [|done]. simpl.
    unfold diverge. rewrite Z.add_0_r, list_insert_id by done. by rewrite state_eta.
  - cbn [deque_extend stream_run]. unfold deque_step, bind, wbind.
    cbn [fst snd]. rewrite (zip_count_step it a c s Hc).
    destruct (stream_next it (world s)) as [[[x it'|]|e|] w1].
    + pose proof (lookup_lt_Some _ _ _ Hc) as Hlt.
      destruct (IH it' (c + 1) (MkState w1 (<[a := c + 1]> (heap s)))) as (k & Hk & Hlen).
      { simpl. by apply list_lookup_insert_eq. }
      cbn [world heap] in Hk, Hlen. exists (S k). split.
      * unfold ret. change (deque_append (x, c) (Deque [] (Some 0%nat)))
          with (@Deque (A * Z) [] (Some 0%nat)).
        rewrite Hk.
        replace (c + Z.of_nat (S k)) with (c + 1 + Z.of_nat k) by lia.
        destruct (stream_run fuel it' w1) as [[xs|e|] w2]; simpl;
          by rewrite list_insert_insert_eq.
      * intros xs Hxs.
        destruct (stream_run fuel it' w1) as [[ys|e|] w2]; simpl in *; try done.
        inversion Hxs; subst. simpl. f_equal. by apply Hlen.
    + exists O. split; [|by intros xs [= <-]]. simpl.
      by rewrite Z.add_0_r, list_insert_id.
    + exists O. split; [|done]. simpl. by rewrite Z.add_0_r, list_insert_id.
    + exists O. split; [|done]. simpl. by rewrite Z.add_0_r, list_insert_id.
Qed.

(** The three lines of [count_chunks] over a stream. *)
Lemma count_by_drain_run (fuel : nat) (it : I) (s : State) :
  exists v : Z,
    count_by_drain fuel it s =
      (outcome_map (fun xs => Z.of_nat (length xs)) (fst (stream_run fuel it (world s))),
       MkState (snd (stream_run fuel it (world s))) (heap s ++ [v])).
Proof.
  unfold count_by_drain, bind, itertools_count, deque_new.
  destruct (drain_zip_count fuel it (length (heap s)) 0
              (MkState (world s) (heap s ++ [0]))) as (k & Hk & Hlen).
  { simpl. by apply list_lookup_middle. }
  simpl in Hk, Hlen. rewrite Hk.
  rewrite insert_app_r_alt by lia. rewrite Nat.sub_diag. simpl.
  destruct (stream_run fuel it (world s)) as [[xs|e|] w1]; simpl in *.
  - unfold builtin_next, bind, py_next, count_iterator; simpl.
    rewrite list_lookup_middle by done. simpl.
    rewrite insert_app_r_alt by lia. rewrite Nat.sub_diag. simpl.
    rewrite (Hlen xs eq_refl). eauto.
  - eauto.
  - eauto.
Qed.

End AnyStream.

(** ** The stream decoder on a file *)

Section ParseProps.

Context {pb_cls Message : Type} `{vg : vg_pb2 pb_cls Message}.

(** Closing the handle just opened restores the table of open files. *)
Lemma stream_close_open (w : World) (path : string) (fs : list (list byte)) :
  stream_close (fresh (dom (fds w)))
    (MkWorld (disk w) (<[fresh (dom (fds w)) := fs]> (fds w))
       (trace w ++ [EvOpen (fresh (dom (fds w))) path])) =
  MkWorld (disk w) (fds w)
    (trace w ++ [EvOpen (fresh (dom (fds w))) path; EvClose (fresh (dom (fds w)))]).
Proof.
  unfold stream_close; simpl. rewrite lookup_insert_eq. f_equal.
  - rewrite delete_insert_eq. apply delete_id.
    apply not_elem_of_dom, is_fresh.
  - by rewrite <- app_assoc.
Qed.

(** A suspended generator run to its end: the remaining records are
    decoded in order, and the handle is closed whether the last step is the
    end of the file or a record that does not decode. *)
Lemma parse_suspended_run (fuel pos fd : nat) (cls : pb_cls) (w : World)
    (fs : list (list byte)) :
  fds w !! fd = Some fs ->
  (length fs - pos < fuel)%nat ->
  stream_run fuel (GenSuspended fd pos cls) w =
    match mapM (ParseFromString cls) (drop pos fs) with
    | Some ms => (Ret ms, stream_close fd w)
    | None => (Raised DecodeError, stream_close fd w)
    end.
Proof.
  revert pos. induction fuel as [|fuel IH]; intros pos Hfd Hfuel; [lia|].
  cbn [stream_run]. unfold wbind.
  change (stream_next (GenSuspended fd pos cls)) with (parse_resume fd pos cls).
  unfold parse_resume, with_exit, wbind, stream_read. rewrite Hfd.
  destruct (fs !! pos) as [data|] eqn:E.
  - rewrite (drop_S _ _ _ E). cbn [mapM].
    pose proof (lookup_lt_Some _ _ _ E) as Hlt.
    destruct (ParseFromString cls data) as [m|]; simpl; [|done].
    rewrite IH by (done || lia).
    by destruct (mapM (ParseFromString cls) (drop (S pos) fs)).
  - apply lookup_ge_None in E. by rewrite drop_ge.
Qed.

(** [stream.parse(path, cls)] run to its end, with fuel for every record
    and the final [StopIteration]. *)
Lemma parse_run (fuel : nat) (path : string) (cls : pb_cls) (w : World) :
  (records_at path w < fuel)%nat ->
  stream_run fuel (stream_parse path cls) w = parse_outcome cls path w.
Proof.
  unfold records_at, parse_outcome, stream_parse.
  destruct fuel as [|fuel]; [lia|]. intros Hfuel.
  destruct (disk w !! path) as [ino|] eqn:Hd.
  - destruct (readable ino) eqn:Hr.
    + set (fd := fresh (dom (fds w))).
      set (w1 := MkWorld (disk w) (<[fd := frames ino]> (fds w)) (trace w ++ [EvOpen fd path])).
      transitivity (stream_run (S fuel) (GenSuspended fd 0 cls) w1).
      { cbn [stream_run]. unfold wbind.
        change (stream_next (GenCreated path cls))
          with (wbind (stream_open path) (fun fd => parse_resume fd 0 cls)).
        change (stream_next (GenSuspended fd 0 cls)) with (parse_resume fd 0 cls).
        unfold wbind, stream_open. by rewrite Hd, Hr. }
      rewrite (parse_suspended_run (S fuel) 0 fd cls w1 (frames ino)).
      * rewrite drop_0. unfold w1, fd. rewrite stream_close_open.
        by destruct (mapM (ParseFromString cls) (frames ino)).
      * unfold w1; simpl. apply lookup_insert_eq.
      * lia.
    + cbn [stream_run]. unfold wbind.
      change (stream_next (GenCreated path cls))
        with (wbind (stream_open path) (fun fd => parse_resume fd 0 cls)).
      unfold wbind, stream_open. by rewrite Hd, Hr.
  - cbn [stream_run]. unfold wbind.
    change (stream_next (GenCreated path cls))
      with (wbind (stream_open path) (fun fd => parse_resume fd 0 cls)).
    unfold wbind, stream_open. by rewrite Hd.
Qed.

End ParseProps.

(** ** The configurations of the drain *)

Section DrainProps.

Context {I A : Type} `{X : Stream I A}.

(** A run of the constructor's loop only goes through reachable
    configurations. *)
Lemma deque_extend_reach {J B : Type} `{Iterator J B} (fuel : nat)
    (st : deque B * J) (s : State) (d : deque B) (s' : State) :
  deque_extend fuel st s = (Ret d, s') ->
  exists st1 s1, drain_reach (st, s) (st1, s1) /\ deque_step st1 s1 = (Ret (inl d), s').
Proof.
  revert st s. induction fuel as [|fuel IH]; intros st s Hrun; [done|].
  cbn [deque_extend] in Hrun. unfold bind in Hrun.
  destruct (deque_step st s) as [[[d1|st1]|e|] s1] eqn:Hstep; try done.
  - inversion Hrun; subst. exists st, s. split; [constructor|done].
  - destruct (IH st1 s1 Hrun) as (st2 & s2 & Hreach & Hlast).
    exists st2, s2. split; [|done]. by eapply drain_next.
Qed.

(** Along the drain of [zip(it, cnt)] into a deque of length 0 the deque
    holds no element and the heap keeps its size. *)
Lemma drain_reach_zip_inv (c c' : (deque (A * Z) * zip_obj I count_ref) * State) :
  drain_reach c c' ->
  forall it a s,
    c = ((Deque [] (Some 0%nat), Zip it (CountRef a)), s) ->
    (a < length (heap s))%nat ->
    exists it' s',
      c' = ((Deque [] (Some 0%nat), Zip it' (CountRef a)), s')
      /\ length (heap s') = length (heap s).
Proof.
  induction 1 as [c|st s st' s' c Hstep Hreach IH]; intros it a s0 Hc Hlt.
  - eauto.
  - inversion Hc; subst; clear Hc.
    destruct (lookup_lt_is_Some_2 _ _ Hlt) as [cv Hcv].
    unfold deque_step, bind in Hstep. cbn [fst snd] in Hstep.
    rewrite (zip_count_step it a cv s0 Hcv) in Hstep.
    destruct (stream_next it (world s0)) as [[[x it'|]|e|] w1]; try done.
    inversion Hstep; subst; clear Hstep.
    destruct (IH it' a (MkState w1 (<[a := cv + 1]> (heap s0)))) as (it2 & s2 & -> & Hlen).
    + reflexivity.
    + simpl. by rewrite length_insert.
    + exists it2, s2. split; [done|]. rewrite Hlen. simpl. by rewrite length_insert.
Qed.

End DrainProps.

(** ** count_chunks *)

Section CountChunks.

Context {pb_cls Message : Type} `{vg : vg_pb2 pb_cls Message}.

Implicit Types (path : string) (s : State) (w : World) (cls : pb_cls).

Lemma parse_outcome_ended cls path w : fst (parse_outcome cls path w) <> Diverged.
Proof.
  unfold parse_outcome. destruct (disk w !! path) as [ino|]; [|done].
  destruct (readable ino); [|done].
  by destruct (mapM (ParseFromString cls) (frames ino)).
Qed.

(** A run of the decoder that came to an end, whatever the fuel. *)
Lemma parse_run_ended fuel path cls w :
  fst (stream_run fuel (stream_parse path cls) w) <> Diverged ->
  stream_run fuel (stream_parse path cls) w = parse_outcome cls path w.
Proof.
  intros Hend.
  rewrite <- (stream_run_mono fuel (fuel `max` S (records_at path w))) by (lia || done).
  apply parse_run. lia.
Qed.

(** A path that cannot be opened fails at the first [next]. *)
Lemma parse_run_unopenable fuel path cls w :
  openable path w = false ->
  stream_run (S fuel) (stream_parse path cls) w = parse_outcome cls path w.
Proof.
  unfold openable, parse_outcome, stream_parse. intros Hop.
  cbn [stream_run]. unfold wbind.
  change (stream_next (GenCreated path cls))
    with (wbind (stream_open path) (fun fd => parse_resume fd 0 cls)).
  unfold wbind, stream_open.
  destruct (disk w !! path) as [ino|]; [|done]. by rewrite Hop.
Qed.

Lemma parse_outcome_world cls path w :
  disk (snd (parse_outcome cls path w)) = disk w
  /\ fds (snd (parse_outcome cls path w)) = fds w
  /\ trace (snd (parse_outcome cls path w)) =
       trace w ++ (if openable path w
                   then [EvOpen (fresh (dom (fds w))) path; EvClose (fresh (dom (fds w)))]
                   else []).
Proof.
  unfold parse_outcome, openable.
  destruct (disk w !! path) as [ino|]; simpl; [|by rewrite app_nil_r].
  destruct (readable ino); simpl; [|by rewrite app_nil_r].
  by destruct (mapM (ParseFromString cls) (frames ino)).
Qed.

Lemma parse_outcome_ext cls path w1 w2 :
  disk w1 !! path = disk w2 !! path ->
  fst (parse_outcome cls path w1) = fst (parse_outcome cls path w2).
Proof.
  unfold parse_outcome. intros ->.
  destruct (disk w2 !! path) as [ino|]; [|done].
  destruct (readable ino); [|done].
  by destruct (mapM (ParseFromString cls) (frames ino)).
Qed.

Lemma parse_outcome_ret cls path w ms :
  fst (parse_outcome cls path w) = Ret ms ->
  exists ino, disk w !! path = Some ino /\ readable ino = true
              /\ mapM (ParseFromString cls) (frames ino) = Some ms.
Proof.
  unfold parse_outcome. destruct (disk w !! path) as [ino|]; [|done].
  destruct (readable ino) eqn:Hr; [|done].
  destruct (mapM (ParseFromString cls) (frames ino)) as [ms'|] eqn:Hm; [|done].
  intros [= <-]. eauto.
Qed.

Lemma parse_outcome_unopenable cls path w :
  openable path w = false ->
  exists e, is_FileError e = true /\ parse_outcome cls path w = (Raised e, w).
Proof.
  unfold openable, parse_outcome. destruct (disk w !! path) as [ino|].
  - intros ->. by exists (PermissionError path).
  - intros _. by exists (FileNotFoundError path).
Qed.

(** [count_chunks] is the drain idiom applied to the decoder's stream. *)
Lemma count_chunks_run fuel path s :
  exists v : Z,
    count_chunks fuel path s =
      (outcome_map (fun xs => Z.of_nat (length xs))
         (fst (stream_run fuel (stream_parse path Graph) (world s))),
       MkState (snd (stream_run fuel (stream_parse path Graph) (world s))) (heap s ++ [v])).
Proof.
  change (count_chunks fuel path) with (count_by_drain fuel (stream_parse path Graph)).
  apply count_by_drain_run.
Qed.

(** With fuel for every record, [count_chunks] in terms of the file. *)
Lemma count_chunks_file fuel path s :
  (records_at path (world s) < fuel)%nat ->
  exists v : Z,
    count_chunks fuel path s =
      (outcome_map (fun xs => Z.of_nat (length xs)) (fst (parse_outcome Graph path (world s))),
       MkState (snd (parse_outcome Graph path (world s))) (heap s ++ [v])).
Proof.
  intros Hfuel. destruct (count_chunks_run fuel path s) as [v Hv].
  exists v. by rewrite Hv, parse_run.
Qed.

(** C1: on a well-formed file, one that exists, is readable and whose n
    records all decode as [vg.Graph], [count_chunks] returns n; this
    includes the file with no record, for which it returns 0. *)
Theorem count_chunks_counts_records fuel path s (ino : inode) :
  disk (world s) !! path = Some ino ->
  readable ino = true ->
  Forall (fun r => is_Some (ParseFromString Graph r)) (frames ino) ->
  (length (frames ino) < fuel)%nat ->
  fst (count_chunks fuel path s) = Ret (Z.of_nat (length (frames ino))).
Proof.
  intros Hd Hr Hwf Hfuel.
  destruct (count_chunks_file fuel path s) as [v Hv].
  { unfold records_at. by rewrite Hd. }
  rewrite Hv. unfold parse_outcome. rewrite Hd, Hr.
  destruct (mapM_is_Some_2 (ParseFromString Graph) (frames ino) Hwf) as [ms Hms].
  rewrite Hms. simpl. by rewrite (length_mapM _ _ _ Hms).
Qed.

(** C3: over every stream, the zip/deque/count idiom and the plain loop
    with a scalar counter give the same outcome (the same count when the
    stream is finite) and leave the same world; [count_chunks] is that idiom
    over the decoder's stream. *)
Theorem drain_idiom_is_plain_loop :
  (forall (I A : Type) (X : Stream I A) (fuel : nat) (it : I) (s : State),
     fst (count_by_drain fuel it s) = fst (plain_count fuel 0 it s)
     /\ world (snd (count_by_drain fuel it s)) = world (snd (plain_count fuel 0 it s)))
  /\ (forall fuel path s,
        fst (count_chunks fuel path s) = fst (plain_count fuel 0 (stream_parse path Graph) s)
        /\ world (snd (count_chunks fuel path s)) =
             world (snd (plain_count fuel 0 (stream_parse path Graph) s))).
Proof.
  assert (Hgen : forall (I A : Type) (X : Stream I A) (fuel : nat) (it : I) (s : State),
     fst (count_by_drain fuel it s) = fst (plain_count fuel 0 it s)
     /\ world (snd (count_by_drain fuel it s)) = world (snd (plain_count fuel 0 it s))).
  { intros I A X fuel it s.
    destruct (count_by_drain_run fuel it s) as [v Hv].
    rewrite Hv, plain_count_run. simpl. split; [|done].
    by destruct (fst (stream_run fuel it (world s))). }
  split; [exact Hgen|].
  intros fuel path s.
  change (count_chunks fuel path) with (count_by_drain fuel (stream_parse path Graph)).
  apply Hgen.
Qed.

(** C4: an error of the underlying decoder, be it from opening the file or
    from decoding a record, is the outcome of [count_chunks] as it is: no
    count of the records before it is returned.  When the decoder ends
    without error the result is the count of all the records of the file. *)
Theorem count_chunks_propagates_errors fuel path s :
  match fst (stream_run fuel (stream_parse path Graph) (world s)) with
  | Raised e => fst (count_chunks fuel path s) = Raised e
  | Ret xs =>
      fst (count_chunks fuel path s) = Ret (Z.of_nat (length xs))
      /\ exists ino, disk (world s) !! path = Some ino /\ length xs = length (frames ino)
  | Diverged => fst (count_chunks fuel path s) = Diverged
  end.
Proof.
  destruct (count_chunks_run fuel path s) as [v Hv]. rewrite Hv. simpl.
  destruct (fst (stream_run fuel (stream_parse path Graph) (world s))) as [xs|e|] eqn:Hrun;
    simpl; try done.
  split; [done|].
  assert (Hend : fst (stream_run fuel (stream_parse path Graph) (world s)) <> Diverged)
    by (by rewrite Hrun).
  rewrite (parse_run_ended _ _ _ _ Hend) in Hrun.
  destruct (parse_outcome_ret _ _ _ _ Hrun) as (ino & Hd & _ & Hms).
  exists ino. split; [done|]. symmetry. by eapply length_mapM.
Qed.

(** C5: when the path names no existing readable file, [count_chunks]
    raises a file error and returns no number. *)
Theorem count_chunks_missing_file fuel path s :
  openable path (world s) = false ->
  (exists e, is_FileError e = true /\ fst (count_chunks (S fuel) path s) = Raised e)
  /\ (forall fuel' n, fst (count_chunks fuel' path s) <> Ret n).
Proof.
  intros Hop.
  destruct (parse_outcome_unopenable Graph path (world s) Hop) as (e & He & Hout).
  split.
  - exists e. split; [done|].
    destruct (count_chunks_run (S fuel) path s) as [v Hv].
    by rewrite Hv, parse_run_unopenable, Hout.
  - intros fuel' n.
    destruct (count_chunks_run fuel' path s) as [v Hv]. rewrite Hv. simpl.
    destruct fuel' as [|fuel']; [done|].
    by rewrite parse_run_unopenable, Hout.
Qed.

(** C2, as amended: [count_chunks] takes the path alone; the class each
    record is decoded as is fixed to [vg.Graph], so the function is the
    two-argument contract at that class; its result is a non-negative
    integer. *)
Theorem count_chunks_is_typed_at_Graph fuel path s :
  count_chunks fuel path s = count_chunks_typed fuel path Graph s
  /\ match fst (count_chunks fuel path s) with
     | Ret n => 0 <= n
     | _ => True
     end.
Proof.
  split; [reflexivity|].
  destruct (count_chunks_run fuel path s) as [v Hv]. rewrite Hv. simpl.
  destruct (fst (stream_run fuel (stream_parse path Graph) (world s))); simpl; [lia|done..].
Qed.

(** C6: two calls in succession on the same file have the same outcome, so
    the same count; the first call leaves the files and the open handles as
    they were, and each call works on a counter of its own, allocated by
    that call. *)
Theorem count_chunks_twice fuel path s :
  (records_at path (world s) < fuel)%nat ->
  fst (count_chunks fuel path (snd (count_chunks fuel path s))) = fst (count_chunks fuel path s)
  /\ disk (world (snd (count_chunks fuel path s))) = disk (world s)
  /\ fds (world (snd (count_chunks fuel path s))) = fds (world s)
  /\ exists v1 v2,
       heap (snd (count_chunks fuel path s)) = heap s ++ [v1]
       /\ heap (snd (count_chunks fuel path (snd (count_chunks fuel path s)))) =
            heap s ++ [v1; v2].
Proof.
  intros Hfuel.
  destruct (count_chunks_file fuel path s Hfuel) as [v1 Hv1].
  destruct (parse_outcome_world Graph path (world s)) as (Hdisk & Hfds & _).
  rewrite Hv1. cbn [fst snd world heap].
  set (s1 := MkState (snd (parse_outcome Graph path (world s))) (heap s ++ [v1])).
  assert (Hfuel1 : (records_at path (world s1) < fuel)%nat).
  { unfold records_at, s1. cbn [world]. rewrite Hdisk. exact Hfuel. }
  destruct (count_chunks_file fuel path s1 Hfuel1) as [v2 Hv2].
  rewrite Hv2. cbn [fst snd world heap].
  repeat split; try done.
  - f_equal. apply parse_outcome_ext. unfold s1; cbn [world]. by rewrite Hdisk.
  - exists v1, v2. split; [done|]. unfold s1; cbn [heap]. by rewrite <- app_assoc.
Qed.

(** C7: a call writes nothing and leaves every object it did not create
    as it was: the files are unchanged, the open handles are those of
    before, the counters already on the heap are untouched, and the only
    trace is one handle opened and closed again (none when the path cannot
    be opened), whether the call returns or raises. *)
Theorem count_chunks_frame fuel path s :
  (records_at path (world s) < fuel)%nat ->
  disk (world (snd (count_chunks fuel path s))) = disk (world s)
  /\ fds (world (snd (count_chunks fuel path s))) = fds (world s)
  /\ trace (world (snd (count_chunks fuel path s))) =
       trace (world s) ++
         (if openable path (world s)
          then [EvOpen (fresh (dom (fds (world s)))) path;
                EvClose (fresh (dom (fds (world s))))]
          else [])
  /\ (exists v, heap (snd (count_chunks fuel path s)) = heap s ++ [v])
  /\ fst (count_chunks fuel path s) <> Diverged.
Proof.
  intros Hfuel.
  destruct (count_chunks_file fuel path s Hfuel) as [v Hv].
  destruct (parse_outcome_world Graph path (world s)) as (Hdisk & Hfds & Htrace).
  rewrite Hv. cbn [fst snd world heap].
  repeat split; try done.
  - by exists v.
  - pose proof (parse_outcome_ended Graph path (world s)) as Hend.
    by destruct (fst (parse_outcome Graph path (world s))).
Qed.

(** C8: whenever [count_chunks] returns, the result is a non-negative
    integer, the number of records of the file, all of them decoded; and it
    is determined by the file as it is at the call: from any other state
    with the same file under [path] the call returns the same number. *)
Theorem count_chunks_result fuel path s (n : Z) :
  fst (count_chunks fuel path s) = Ret n ->
  0 <= n
  /\ (exists ino ms,
        disk (world s) !! path = Some ino /\ readable ino = true
        /\ mapM (ParseFromString Graph) (frames ino) = Some ms
        /\ n = Z.of_nat (length ms) /\ length ms = length (frames ino))
  /\ (forall s' fuel',
        disk (world s') !! path = disk (world s) !! path ->
        (records_at path (world s') < fuel')%nat ->
        fst (count_chunks fuel' path s') = Ret n).
Proof.
  intros Hret.
  destruct (count_chunks_run fuel path s) as [v Hv]. rewrite Hv in Hret. simpl in Hret.
  destruct (fst (stream_run fuel (stream_parse path Graph) (world s))) as [xs|e|] eqn:Hrun;
    try done.
  simpl in Hret. injection Hret as <-.
  assert (Hend : fst (stream_run fuel (stream_parse path Graph) (world s)) <> Diverged)
    by (by rewrite Hrun).
  rewrite (parse_run_ended _ _ _ _ Hend) in Hrun.
  destruct (parse_outcome_ret _ _ _ _ Hrun) as (ino & Hd & Hr & Hms).
  split; [lia|]. split.
  - exists ino, xs. repeat split; try done. symmetry. by eapply length_mapM.
  - intros s' fuel' Hsame Hfuel'.
    destruct (count_chunks_file fuel' path s' Hfuel') as [v' Hv']. rewrite Hv'. simpl.
    by rewrite (parse_outcome_ext Graph path (world s') (world s) Hsame), Hrun.
Qed.

(** A drain into a deque of length 0, started on a new counter: in every
    configuration it goes through the deque holds no element, the second
    component of the zip is still that counter, and the heap has grown by
    the counter only. *)
Lemma drain_retains_no_record path s (cnt : count_ref) (s1 : State)
    (d : deque (Message * Z)) (z : zip_obj (generator (pb_cls := pb_cls)) count_ref)
    (s' : State) :
  itertools_count s = (Ret cnt, s1) ->
  drain_reach ((Deque [] (Some 0%nat), Zip (stream_parse path Graph) cnt), s1) ((d, z), s') ->
  items d = [] /\ maxlen d = Some 0%nat /\ zip_it2 z = cnt
  /\ length (heap s') = S (length (heap s)).
Proof.
  unfold itertools_count. intros [= <- <-] Hreach.
  destruct (drain_reach_zip_inv _ _ Hreach (stream_parse path Graph) (length (heap s))
              (MkState (world s) (heap s ++ [0])) eq_refl) as (it' & s2 & Heq & Hlen).
  { simpl. rewrite length_app. simpl. lia. }
  inversion Heq; subst. simpl in *. repeat split; try done.
  rewrite Hlen, length_app. simpl. lia.
Qed.

End CountChunks.

(** ** The counter after the drain *)

Section CounterAfterDrain.

Context {I A : Type} `{X : Stream I A}.

(** With the counter as second argument of [zip], draining the pair
    advances the counter once per element the stream produces and leaves it
    alone when the stream is exhausted. *)
Lemma zip_counter_second_after_drain (fuel : nat) (it : I) (a : nat) (c : Z) (s : State)
    (xs : list A) (w' : World) :
  heap s !! a = Some c ->
  stream_run fuel it (world s) = (Ret xs, w') ->
  heap (snd (deque_new fuel (Zip it (CountRef a)) (Some 0%nat) s)) !! a
    = Some (c + Z.of_nat (length xs))
  /\ fst (builtin_next (CountRef a)
            (snd (deque_new fuel (Zip it (CountRef a)) (Some 0%nat) s)))
     = Ret (c + Z.of_nat (length xs))
  /\ (forall w1, stream_next it (world s) = (Ret StopIteration, w1) ->
        heap (snd (py_next (Zip it (CountRef a)) s)) = heap s).
Proof.
  intros Hc Hrun.
  destruct (drain_zip_count fuel it a c s Hc) as (k & Hk & Hlen).
  rewrite Hrun in Hk, Hlen. simpl in Hk, Hlen. rewrite (Hlen xs eq_refl) in Hk.
  unfold deque_new. rewrite Hk. cbn [snd heap].
  pose proof (lookup_lt_Some _ _ _ Hc) as Hlt.
  assert (Hcell : <[a := c + Z.of_nat (length xs)]> (heap s) !! a
                  = Some (c + Z.of_nat (length xs)))
    by (by apply list_lookup_insert_eq).
  split; [done|]. split.
  - unfold builtin_next, bind, py_next, count_iterator. simpl. by rewrite Hcell.
  - intros w1 Hstop. by rewrite (zip_count_step it a c s Hc), Hstop.
Qed.

End CounterAfterDrain.

(** ** The claims on the concrete world *)

(** A file of three graph records counts 3; the empty file counts 0. *)
Lemma count_chunks_counts_records_witness :
  (disk (world Toy.toy_state) !! "graphs.vg"
     = Some (Inode true [[x01; x05]; [x01]; [x01; x07]])
   /\ fst (count_chunks 10 "graphs.vg" Toy.toy_state) = Ret 3)
  /\ fst (count_chunks 10 "empty.vg" Toy.toy_state) = Ret 0.
Proof.
  split; [split; [vm_compute; reflexivity|]|].
  - apply (count_chunks_counts_records 10 "graphs.vg" Toy.toy_state
             (Inode true [[x01; x05]; [x01]; [x01; x07]])).
    + vm_compute; reflexivity.
    + reflexivity.
    + repeat constructor; by eexists.
    + simpl; lia.
  - apply (count_chunks_counts_records 10 "empty.vg" Toy.toy_state (Inode true [])).
    + vm_compute; reflexivity.
    + reflexivity.
    + constructor.
    + simpl; lia.
Defined.

(** On the file of graph records the code returns 3 whatever class the
    caller has in mind, where the two-argument contract at the other class
    raises a decode error. *)
Lemma count_chunks_ignores_message_type :
  fst (count_chunks 10 "graphs.vg" Toy.toy_state) = Ret 3
  /\ fst (count_chunks_typed 10 "graphs.vg" Toy.TAlignment Toy.toy_state) = Raised DecodeError.
Proof. split; vm_compute; reflexivity. Qed.

(** A record that does not decode after one that does: the error, not 1. *)
Example count_chunks_mixed_file :
  fst (count_chunks 10 "mixed.vg" Toy.toy_state) = Raised DecodeError.
Proof. vm_compute; reflexivity. Qed.

(** With the counter first in [zip] the count is one too many. *)
Example counter_first_overcounts :
  fst (count_by_drain_swapped 10 (stream_parse "graphs.vg" Toy.TGraph) Toy.toy_state) = Ret 4.
Proof. vm_compute; reflexivity. Qed.

(** A deque without [maxlen] would hold every decoded record. *)
Example unbounded_deque_retains :
  outcome_map (fun d => length (items d))
    (fst (deque_new 10 (Zip (stream_parse "graphs.vg" Toy.TGraph) (CountRef 0)) None
            (MkState (world Toy.toy_state) [0]))) = Ret 3%nat.
Proof. vm_compute; reflexivity. Qed.

Lemma count_chunks_missing_file_witness :
  (openable "nowhere.vg" (world Toy.toy_state) = false
   /\ exists e, is_FileError e = true
                /\ fst (count_chunks 1 "nowhere.vg" Toy.toy_state) = Raised e)
  /\ (openable "locked.vg" (world Toy.toy_state) = false
      /\ exists e, is_FileError e = true
                   /\ fst (count_chunks 1 "locked.vg" Toy.toy_state) = Raised e).
Proof.
  split; (split; [vm_compute; reflexivity|]).
  - apply (count_chunks_missing_file 0 "nowhere.vg" Toy.toy_state). vm_compute; reflexivity.
  - apply (count_chunks_missing_file 0 "locked.vg" Toy.toy_state). vm_compute; reflexivity.
Defined.

Lemma count_chunks_twice_witness :
  fst (count_chunks 10 "graphs.vg" (snd (count_chunks 10 "graphs.vg" Toy.toy_state)))
    = fst (count_chunks 10 "graphs.vg" Toy.toy_state)
  /\ fst (count_chunks 10 "graphs.vg" Toy.toy_state) = Ret 3.
Proof.
  split.
  - apply (count_chunks_twice 10 "graphs.vg" Toy.toy_state). vm_compute; lia.
  - vm_compute; reflexivity.
Defined.

Lemma count_chunks_frame_witness :
  fds (world (snd (count_chunks 10 "mixed.vg" Toy.toy_state))) = fds (world Toy.toy_state)
  /\ trace (world (snd (count_chunks 10 "mixed.vg" Toy.toy_state)))
     = [EvOpen 0 "mixed.vg"; EvClose 0]
  /\ fst (count_chunks 10 "mixed.vg" Toy.toy_state) = Raised DecodeError.
Proof.
  pose proof (count_chunks_frame 10 "mixed.vg" Toy.toy_state ltac:(vm_compute; lia))
    as (_ & Hfds & Htrace & _ & _).
  split; [exact Hfds|]. split; [exact Htrace|]. vm_compute; reflexivity.
Defined.

Lemma count_chunks_result_witness :
  fst (count_chunks 4 "graphs.vg" Toy.toy_state) = Ret 3
  /\ 0 <= 3
  /\ fst (count_chunks 7 "graphs.vg" (snd (count_chunks 4 "mixed.vg" Toy.toy_state))) = Ret 3.
Proof.
  assert (H : fst (count_chunks 4 "graphs.vg" Toy.toy_state) = Ret 3)
    by (vm_compute; reflexivity).
  destruct (count_chunks_result 4 "graphs.vg" Toy.toy_state 3 H) as (Hpos & _ & Hfresh).
  split; [exact H|]. split; [exact Hpos|].
  apply Hfresh; [vm_compute; reflexivity | vm_compute; lia].
Defined.

(** ** The counter first in zip *)

Section CounterFirst.

Context {I A : Type} `{X : Stream I A}.

(** One call of [next] on [zip(cnt, it)]: the counter is advanced before
    the stream is asked, whatever the stream then does. *)
Lemma zip_count_first_step (it : I) (a : nat) (c : Z) (s : State) :
  heap s !! a = Some c ->
  py_next (Zip (CountRef a) it) s =
    match stream_next it (world s) with
    | (Ret (Yield x it'), w1) =>
        (Ret (Yield (c, x) (Zip (CountRef a) it')), MkState w1 (<[a := c + 1]> (heap s)))
    | (Ret StopIteration, w1) => (Ret StopIteration, MkState w1 (<[a := c + 1]> (heap s)))
    | (Raised e, w1) => (Raised e, MkState w1 (<[a := c + 1]> (heap s)))
    | (Diverged, w1) => (Diverged, MkState w1 (<[a := c + 1]> (heap s)))
    end.
Proof.
  intros Hc. unfold py_next, zip_iterator, bind; simpl.
  unfold py_next at 1, count_iterator; simpl. rewrite Hc.
  unfold py_next, stream_iterator, lift; simpl.
  by destruct (stream_next it (world s)) as [[[x it'|]|e|] w1].
Qed.

Lemma drain_count_first (fuel : nat) (it : I) (a : nat) (c : Z) (s : State) :
  heap s !! a = Some c ->
  exists k : nat,
    deque_extend fuel (Deque [] (Some 0%nat), Zip (CountRef a) it) s =
      (outcome_map (fun _ => Deque [] (Some 0%nat)) (fst (stream_run fuel it (world s))),
       MkState (snd (stream_run fuel it (world s))) (<[a := c + Z.of_nat k]> (heap s)))
    /\ (forall xs, fst (stream_run fuel it (world s)) = Ret xs -> k = S (length xs)).
Proof.
  revert it c s.
  induction fuel as [|fuel IH]; intros it c s Hc.
  - exists O. split; [|done]. simpl.
    unfold diverge. rewrite Z.add_0_r, list_insert_id by done. by rewrite state_eta.
  - cbn [deque_extend stream_run]. unfold deque_step, bind, wbind.
    cbn [fst snd]. rewrite (zip_count_first_step it a c s Hc).
    pose proof (lookup_lt_Some _ _ _ Hc) as Hlt.
    destruct (stream_next it (world s)) as [[[x it'|]|e|] w1].
    + destruct (IH it' (c + 1) (MkState w1 (<[a := c + 1]> (heap s)))) as (k & Hk & Hlen).
      { simpl. by apply list_lookup_insert_eq. }
      cbn [world heap] in Hk, Hlen. exists (S k). split.
      * unfold ret. change (deque_append (c, x) (Deque [] (Some 0%nat)))
          with (@Deque (Z * A) [] (Some 0%nat)).
        rewrite Hk.
        replace (c + Z.of_nat (S k)) with (c + 1 + Z.of_nat k) by lia.
        destruct (stream_run fuel it' w1) as [[xs|e|] w2]; simpl;
          by rewrite list_insert_insert_eq.
      * intros xs Hxs.
        destruct (stream_run fuel it' w1) as [[ys|e|] w2]; simpl in *; try done.
        inversion Hxs; subst. simpl. f_equal. by apply Hlen.
    + exists 1%nat. split; [done|]. by intros xs [= <-].
    + exists 1%nat. split; [done|]. done.
    + exists 1%nat. split; [done|]. done.
Qed.

End CounterFirst.

(** ** Further properties of count_chunks *)

Section CountChunksMore.

Context {pb_cls Message : Type} `{vg : vg_pb2 pb_cls Message}.

Implicit Types (path : string) (s : State) (w : World) (cls : pb_cls).

(** X1: the comment of the source, "cnt must be second zip arg to avoid
    advancing too far": with the counter as first argument of [zip] the
    same three lines return one more than [count_chunks] whenever they
    return, over any stream, and raise as it raises. *)
Theorem counter_first_is_one_too_many :
  (forall (I A : Type) (X : Stream I A) (fuel : nat) (it : I) (s : State),
     fst (count_by_drain_swapped fuel it s)
       = outcome_map (fun n => n + 1) (fst (count_by_drain fuel it s)))
  /\ (forall fuel path s,
        fst (count_by_drain_swapped fuel (stream_parse path Graph) s)
          = outcome_map (fun n => n + 1) (fst (count_chunks fuel path s))).
Proof.
  assert (Hgen : forall (I A : Type) (X : Stream I A) (fuel : nat) (it : I) (s : State),
     fst (count_by_drain_swapped fuel it s)
       = outcome_map (fun n => n + 1) (fst (count_by_drain fuel it s))).
  { intros I A X fuel it s.
    destruct (count_by_drain_run fuel it s) as [v Hv]. rewrite Hv. cbn [fst].
    unfold count_by_drain_swapped, bind, itertools_count, deque_new.
    destruct (drain_count_first fuel it (length (heap s)) 0
                (MkState (world s) (heap s ++ [0]))) as (k & Hk & Hlen).
    { simpl. by apply list_lookup_middle. }
    simpl in Hk, Hlen. rewrite Hk.
    rewrite insert_app_r_alt by lia. rewrite Nat.sub_diag. simpl.
    destruct (stream_run fuel it (world s)) as [[xs|e|] w1]; simpl in *; try done.
    unfold builtin_next, bind, py_next, count_iterator; simpl.
    rewrite list_lookup_middle by done. simpl.
    rewrite (Hlen xs eq_refl). f_equal. lia. }
  split; [exact Hgen|].
  intros fuel path s.
  change (count_chunks fuel path) with (count_by_drain fuel (stream_parse path Graph)).
  apply Hgen.
Qed.

(** X2: one record that does not decode as [vg.Graph], anywhere in a
    readable file, makes the call raise [DecodeError]; the handle is closed
    again. *)
Theorem count_chunks_undecodable_record fuel path s (ino : inode) :
  disk (world s) !! path = Some ino ->
  readable ino = true ->
  Exists (fun r => ParseFromString Graph r = None) (frames ino) ->
  (length (frames ino) < fuel)%nat ->
  fst (count_chunks fuel path s) = Raised DecodeError
  /\ fds (world (snd (count_chunks fuel path s))) = fds (world s).
Proof.
  intros Hd Hr Hbad Hfuel.
  destruct (count_chunks_file fuel path s) as [v Hv].
  { unfold records_at. by rewrite Hd. }
  rewrite Hv. unfold parse_outcome. rewrite Hd, Hr.
  by rewrite (mapM_None_2 (ParseFromString Graph) (frames ino) Hbad).
Qed.

(** X3: the exceptions of [count_chunks] and their causes.  The call raises
    [FileNotFoundError] only for a path with no file, [PermissionError]
    only for an unreadable file, [DecodeError] only for a readable file
    with a record that does not decode; the final [next(cnt)] never raises
    [StopIteration] and no read hits a closed file. *)
Theorem count_chunks_exception_cause fuel path s (e : exn) :
  fst (count_chunks fuel path s) = Raised e ->
  (e = FileNotFoundError path /\ disk (world s) !! path = None)
  \/ (e = PermissionError path
      /\ exists ino, disk (world s) !! path = Some ino /\ readable ino = false)
  \/ (e = DecodeError
      /\ exists ino, disk (world s) !! path = Some ino /\ readable ino = true
                     /\ Exists (fun r => ParseFromString Graph r = None) (frames ino)).
Proof.
  intros Hraise.
  destruct (count_chunks_run fuel path s) as [v Hv]. rewrite Hv in Hraise. simpl in Hraise.
  destruct (fst (stream_run fuel (stream_parse path Graph) (world s))) as [xs|e'|] eqn:Hrun;
    try done.
  simpl in Hraise. injection Hraise as ->.
  assert (Hend : fst (stream_run fuel (stream_parse path Graph) (world s)) <> Diverged)
    by (by rewrite Hrun).
  rewrite (parse_run_ended _ _ _ _ Hend) in Hrun. unfold parse_outcome in Hrun.
  destruct (disk (world s) !! path) as [ino|] eqn:Hd.
  - destruct (readable ino) eqn:Hr.
    + destruct (mapM (ParseFromString Graph) (frames ino)) as [ms|] eqn:Hm; [done|].
      injection Hrun as <-. right; right. split; [done|].
      exists ino. repeat split; try done. by apply mapM_None_1.
    + injection Hrun as <-. right; left. split; [done|]. by exists ino.
  - injection Hrun as <-. by left.
Qed.

(** One turn of the drain keeps the invariant. *)
Lemma drain_invariant_step path s (d d2 : deque (Message * Z))
    (z z2 : zip_obj (generator (pb_cls := pb_cls)) count_ref) (s' s2 : State) :
  drain_invariant path s ((d, z), s') ->
  deque_step (d, z) s' = (Ret (inr (d2, z2)), s2) ->
  drain_invariant path s ((d2, z2), s2).
Proof.
  unfold drain_invariant. cbn [fst snd].
  intros (Hz & Hdisk & Hcases) Hstep.
  destruct z as [g cref]. cbn [zip_it1 zip_it2] in *. subst cref.
  unfold deque_step, bind in Hstep. cbn [fst snd] in Hstep.
  destruct Hcases as [(Hg & Hw & Hh) | (ino & pos & Hd & Hg & Hpos & Hh & Hfds & Htr)];
    subst g; rewrite (zip_count_step _ _ _ _ Hh) in Hstep;
    pose proof (lookup_lt_Some _ _ _ Hh) as Hlt.
  - change (stream_next (GenCreated path Graph))
      with (wbind (stream_open path) (fun fd => parse_resume fd 0 Graph)) in Hstep.
    unfold wbind, stream_open in Hstep. rewrite Hw in Hstep.
    destruct (disk (world s) !! path) as [ino|] eqn:Hd; [|done].
    destruct (readable ino); [|done].
    unfold parse_resume, with_exit, wbind, stream_read in Hstep. cbn [fds] in Hstep.
    rewrite lookup_insert_eq in Hstep.
    destruct (frames ino !! 0%nat) as [data|] eqn:Hrec; [|done].
    destruct (ParseFromString Graph data) as [m|]; [|done].
    simpl in Hstep. inversion Hstep; subst; clear Hstep. cbn [zip_it1 zip_it2 world heap disk].
    split; [done|]. split; [done|]. right. exists ino, 1%nat.
    pose proof (lookup_lt_Some _ _ _ Hrec) as Hlen.
    repeat split; try done; try lia.
    by apply list_lookup_insert_eq.
  - change (stream_next (GenSuspended (fresh (dom (fds (world s)))) pos Graph))
      with (parse_resume (fresh (dom (fds (world s)))) pos Graph) in Hstep.
    unfold parse_resume, with_exit, wbind, stream_read in Hstep.
    rewrite Hfds, lookup_insert_eq in Hstep.
    destruct (frames ino !! pos) as [data|] eqn:Hrec; [|done].
    destruct (ParseFromString Graph data) as [m|]; [|done].
    simpl in Hstep. inversion Hstep; subst; clear Hstep. cbn [zip_it1 zip_it2 world heap].
    split; [done|]. split; [done|]. right. exists ino, (S pos).
    pose proof (lookup_lt_Some _ _ _ Hrec) as Hlen.
    repeat split; try done; try lia.
    replace (Z.of_nat (S pos)) with (Z.of_nat pos + 1) by lia.
    by apply list_lookup_insert_eq.
Qed.

Lemma drain_invariant_reach path s
    (c c' : (deque (Message * Z) * zip_obj (generator (pb_cls := pb_cls)) count_ref) * State) :
  drain_reach c c' -> drain_invariant path s c -> drain_invariant path s c'.
Proof.
  induction 1 as [c|st s0 st' s0' c Hstep Hreach IH]; intros Hinv; [done|].
  apply IH. destruct st as [d z], st' as [d2 z2].
  by eapply drain_invariant_step.
Qed.

(** The invariant holds along a drain started on a new counter. *)
Lemma drain_invariant_from_start path s (cnt : count_ref) (s1 : State)
    (d : deque (Message * Z)) (z : zip_obj (generator (pb_cls := pb_cls)) count_ref)
    (s' : State) :
  itertools_count s = (Ret cnt, s1) ->
  drain_reach ((Deque [] (Some 0%nat), Zip (stream_parse path Graph) cnt), s1) ((d, z), s') ->
  drain_invariant path s ((d, z), s').
Proof.
  unfold itertools_count. intros [= <- <-] Hreach.
  apply (drain_invariant_reach path s _ _ Hreach).
  unfold drain_invariant. cbn [fst snd zip_it1 zip_it2 world heap].
  split; [done|]. split; [done|]. left.
  repeat split; try done. by apply list_lookup_middle.
Qed.

End CountChunksMore.

Lemma count_chunks_undecodable_record_witness :
  disk (world Toy.toy_state) !! "mixed.vg" = Some (Inode true [[x01]; [x02]])
  /\ fst (count_chunks 3 "mixed.vg" Toy.toy_state) = Raised DecodeError
  /\ fds (world (snd (count_chunks 3 "mixed.vg" Toy.toy_state))) = fds (world Toy.toy_state).
Proof.
  split; [vm_compute; reflexivity|].
  apply (count_chunks_undecodable_record 3 "mixed.vg" Toy.toy_state
           (Inode true [[x01]; [x02]])).
  - vm_compute; reflexivity.
  - reflexivity.
  - apply Exists_cons_tl, Exists_cons_hd. reflexivity.
  - simpl; lia.
Defined.

Lemma count_chunks_exception_cause_witness :
  fst (count_chunks 1 "locked.vg" Toy.toy_state) = Raised (PermissionError "locked.vg")
  /\ ((PermissionError "locked.vg" = FileNotFoundError "locked.vg"
       /\ disk (world Toy.toy_state) !! "locked.vg" = None)
      \/ (PermissionError "locked.vg" = PermissionError "locked.vg"
          /\ exists ino, disk (world Toy.toy_state) !! "locked.vg" = Some ino
                         /\ readable ino = false)
      \/ (PermissionError "locked.vg" = DecodeError
          /\ exists ino, disk (world Toy.toy_state) !! "locked.vg" = Some ino
                         /\ readable ino = true
                         /\ Exists (fun r => ParseFromString Graph r = None) (frames ino))).
Proof.
  assert (H : fst (count_chunks 1 "locked.vg" Toy.toy_state)
              = Raised (PermissionError "locked.vg")) by (vm_compute; reflexivity).
  split; [exact H|].
  exact (count_chunks_exception_cause 1 "locked.vg" Toy.toy_state _ H).
Defined.


(** ** The drain as count_chunks runs it *)

(** The deque a drain starts from bears on the deque it returns only: the
    kind of outcome and the state reached are the same. *)
Lemma deque_extend_any_deque {J B : Type} `{Iterator J B} (fuel : nat)
    (d d' : deque B) (it : J) (s : State) :
  outcome_map (fun _ => tt) (fst (deque_extend fuel (d, it) s))
    = outcome_map (fun _ => tt) (fst (deque_extend fuel (d', it) s))
  /\ snd (deque_extend fuel (d, it) s) = snd (deque_extend fuel (d', it) s).
Proof.
  revert d d' it s. induction fuel as [|fuel IH]; intros d d' it s; [done|].
  cbn [deque_extend]. unfold deque_step, bind. cbn [fst snd].
  destruct (py_next it s) as [[[x it'|]|e|] s1]; simpl; first [apply IH | done].
Qed.

Section CountChunksDrain.

Context {pb_cls Message : Type} `{vg : vg_pb2 pb_cls Message}.

Implicit Types (path : string) (s : State) (w : World) (cls : pb_cls).

(** What the deque retains cannot be seen from outside the call: with a
    deque that keeps every pair, the outcome and the state after the call
    are those of [count_chunks], on every input. *)
Lemma count_chunks_indifferent_to_maxlen fuel path s :
  count_chunks_unbounded fuel path s = count_chunks fuel path s.
Proof.
  unfold count_chunks_unbounded, count_chunks, bind, itertools_count, deque_new.
  destruct (deque_extend_any_deque fuel (Deque (A := Message * Z) [] None)
              (Deque [] (Some 0%nat))
              (Zip (stream_parse path Graph) (CountRef (length (heap s))))
              (MkState (world s) (heap s ++ [0]))) as [Hout Hst].
  destruct (deque_extend fuel (Deque [] None, _) _) as [[d1|e1|] s1];
    destruct (deque_extend fuel (Deque [] (Some 0%nat), _) _) as [[d2|e2|] s2];
    simpl in *; subst; try done.
  by injection Hout as ->.
Qed.

(** C10: in [count_chunks] the counter is the second argument of [zip], so
    when the stream has produced its elements and stopped, the drain has
    advanced the counter of the call once per element and not once more on
    exhaustion: it holds the number of elements.  [count_chunks] returns
    what [next(cnt)] then gives, that number, without one too many, and
    leaves the counter one further. *)
Theorem count_chunks_counter_is_exact fuel path s (xs : list Message) (w' : World) :
  stream_run fuel (stream_parse path Graph) (world s) = (Ret xs, w') ->
  deque_new fuel (Zip (stream_parse path Graph) (CountRef (length (heap s)))) (Some 0%nat)
      (MkState (world s) (heap s ++ [0]))
    = (Ret (Deque [] (Some 0%nat)), MkState w' (heap s ++ [Z.of_nat (length xs)]))
  /\ count_chunks fuel path s
     = builtin_next (CountRef (length (heap s)))
         (MkState w' (heap s ++ [Z.of_nat (length xs)]))
  /\ count_chunks fuel path s
     = (Ret (Z.of_nat (length xs)), MkState w' (heap s ++ [Z.of_nat (length xs) + 1])).
Proof.
  intros Hrun.
  destruct (drain_zip_count fuel (stream_parse path Graph) (length (heap s)) 0
              (MkState (world s) (heap s ++ [0]))) as (k & Hk & Hlen).
  { simpl. by apply list_lookup_middle. }
  cbn [world heap] in Hk, Hlen. rewrite Hrun in Hk, Hlen. cbn [fst snd] in Hk, Hlen.
  rewrite (Hlen xs eq_refl) in Hk.
  rewrite insert_app_r_alt in Hk by lia. rewrite Nat.sub_diag in Hk.
  cbn [outcome_map] in Hk. simpl in Hk.
  assert (Hnext : builtin_next (CountRef (length (heap s)))
                    (MkState w' (heap s ++ [Z.of_nat (length xs)]))
                  = (Ret (Z.of_nat (length xs)),
                     MkState w' (heap s ++ [Z.of_nat (length xs) + 1]))).
  { unfold builtin_next, bind, py_next, count_iterator. simpl.
    rewrite list_lookup_middle by done. simpl.
    rewrite insert_app_r_alt by lia. by rewrite Nat.sub_diag. }
  assert (Hcall : count_chunks fuel path s
                  = builtin_next (CountRef (length (heap s)))
                      (MkState w' (heap s ++ [Z.of_nat (length xs)]))).
  { unfold count_chunks, bind at 1, itertools_count. unfold bind at 1, deque_new.
    by rewrite Hk. }
  split; [exact Hk|]. split; [exact Hcall|]. by rewrite Hcall.
Qed.

(** X4: [count_chunks] is its drain followed by [next(cnt)], and in every
    configuration that drain goes through the counter equals the number of
    records decoded so far (the position of the generator in the file), the
    files are untouched, and exactly the one handle the call opened is
    open, on the records of the file. *)
Theorem count_chunks_drain_invariant fuel path s :
  count_chunks fuel path s
    = bind (deque_extend fuel
              (Deque [] (Some 0%nat),
               Zip (stream_parse path Graph) (CountRef (length (heap s)))))
        (fun _ => builtin_next (CountRef (length (heap s))))
        (MkState (world s) (heap s ++ [0]))
  /\ (forall (d : deque (Message * Z))
             (z : zip_obj (generator (pb_cls := pb_cls)) count_ref) (s' : State),
        drain_reach
          ((Deque [] (Some 0%nat), Zip (stream_parse path Graph) (CountRef (length (heap s)))),
           MkState (world s) (heap s ++ [0]))
          ((d, z), s') ->
        drain_invariant path s ((d, z), s')).
Proof.
  split; [reflexivity|].
  intros d z s' Hreach.
  by apply (drain_invariant_from_start path s (CountRef (length (heap s)))
              (MkState (world s) (heap s ++ [0])) d z s').
Qed.

End CountChunksDrain.

Lemma count_chunks_counter_is_exact_witness :
  stream_run 10 (stream_parse "graphs.vg" Toy.TGraph) (world Toy.toy_state)
    = (Ret [[x05]; []; [x07]], MkWorld Toy.toy_disk ∅ [EvOpen 0 "graphs.vg"; EvClose 0])
  /\ count_chunks 10 "graphs.vg" Toy.toy_state
     = (Ret 3, MkState (MkWorld Toy.toy_disk ∅ [EvOpen 0 "graphs.vg"; EvClose 0]) [4]).
Proof.
  assert (Hrun : stream_run 10 (stream_parse "graphs.vg" Toy.TGraph) (world Toy.toy_state)
    = (Ret [[x05]; []; [x07]], MkWorld Toy.toy_disk ∅ [EvOpen 0 "graphs.vg"; EvClose 0]))
    by (vm_compute; reflexivity).
  split; [exact Hrun|].
  apply (count_chunks_counter_is_exact 10 "graphs.vg" Toy.toy_state _ _ Hrun).
Defined.
